(** * safe_printf: a type-checked front end to printf

    A shallow embedding of [safe_printf/main.cpp]: the parameter
    normalizers [ValidateArgument], the two overloads of [check_printf]
    and [safe_printf] itself, followed by the properties of the format
    scanner and of the normalizers.

    Data model.  The program is built for an LP64 target: [long] is a
    64-bit two's complement integer and [int] a 32-bit one; [float] and
    [double] are IEEE 754 binary32 and binary64, [long double] is the
    x87 extended format.  A format template is a NUL-terminated
    [const char*]; it is modelled by a [string] whose end plays the
    terminator, and a NUL character inside the string ends the template
    just as it would in memory. *)

From Stdlib Require Import ZArith List String Ascii Bool Lia.
From Stdlib Require Import DecimalString.
From Stdlib Require Import Floats.SpecFloat.
Import ListNotations.

Local Open Scope string_scope.
Local Open Scope Z_scope.

(** ** The types a caller can pass *)

Module Types.

(** The fundamental types for which [std::is_integral] holds. *)
Inductive integral_type : Set :=
| Bool | Char | SChar | UChar | WChar | Char16 | Char32
| Short | UShort | Int | UInt | Long | ULong | LongLong | ULongLong.

(** The types for which [std::is_floating_point] holds. *)
Inductive floating_type : Set := Float | Double | LongDouble.

(** What a pointer points to; only the distinction between character
    data and everything else matters to [printf]. *)
Inductive pointee : Set := CharData | ConstCharData | Void | Other.

Inductive type : Set :=
| Integral (t : integral_type)
| Floating (t : floating_type)
| Pointer (p : pointee)
| StdString.

Definition is_integral (T : type) : bool :=
  match T with Integral _ => true | _ => false end.

Definition is_floating_point (T : type) : bool :=
  match T with Floating _ => true | _ => false end.

Definition is_pointer (T : type) : bool :=
  match T with Pointer _ => true | _ => false end.

(** [std::is_object] holds of every type that is not a function, a
    reference or [void]; all the types above are object types. *)
Definition is_object (T : type) : bool := true.

(** Value range of the integral types (LP64, plain [char] signed). *)
Definition min_value (t : integral_type) : Z :=
  match t with
  | Bool | UChar | Char16 | Char32 | UShort | UInt | ULong | ULongLong => 0
  | Char | SChar => - 2 ^ 7
  | Short => - 2 ^ 15
  | WChar | Int => - 2 ^ 31
  | Long | LongLong => - 2 ^ 63
  end.

Definition max_value (t : integral_type) : Z :=
  match t with
  | Bool => 1
  | Char | SChar => 2 ^ 7 - 1
  | UChar => 2 ^ 8 - 1
  | Short => 2 ^ 15 - 1
  | UShort | Char16 => 2 ^ 16 - 1
  | WChar | Int => 2 ^ 31 - 1
  | UInt | Char32 => 2 ^ 32 - 1
  | Long | LongLong => 2 ^ 63 - 1
  | ULong | ULongLong => 2 ^ 64 - 1
  end.

Definition in_range (t : integral_type) (v : Z) : Prop :=
  min_value t <= v <= max_value t.

(** Precision and infinity exponent of the floating-point formats. *)
Definition prec (t : floating_type) : Z :=
  match t with Float => 24 | Double => 53 | LongDouble => 64 end.

Definition emax (t : floating_type) : Z :=
  match t with Float => 128 | Double => 1024 | LongDouble => 16384 end.

End Types.
Import Types.

(** ** Values

    An address is a number; a [std::string] owns a character buffer,
    and [c_str] is the address of that buffer. *)

Definition address := Z.

Record std_string : Set := { c_str : address; contents : string }.

Inductive value : Set :=
| VInt (t : integral_type) (v : Z)
| VFloat (t : floating_type) (x : spec_float)
| VPtr (p : pointee) (a : address)
| VString (s : std_string).

Definition type_of (v : value) : type :=
  match v with
  | VInt t _ => Integral t
  | VFloat t _ => Floating t
  | VPtr p _ => Pointer p
  | VString _ => StdString
  end.

(** A value is well formed when it is one its type can hold. *)
Definition well_formed (v : value) : Prop :=
  match v with
  | VInt t v => in_range t v
  | VFloat t x => valid_binary (prec t) (emax t) x = true
  | VPtr _ _ => True
  | VString _ => True
  end.

(** ** Implicit conversions of [return arg;] *)

(** Conversion to [long]: the value modulo 2^64, read as signed. *)
Definition to_long (v : Z) : Z := (v + 2 ^ 63) mod 2 ^ 64 - 2 ^ 63.

(** Conversion to [double]: the nearest binary64 value, ties to even. *)
Definition to_double (x : spec_float) : spec_float :=
  match x with
  | S754_finite s m e => binary_round 53 1024 s m e
  | _ => x
  end.

(** ** The parameter normalizers

    The three templates are selected by [enable_if] on the type's trait,
    the fourth overload takes a [std::string]; a type outside these four
    families has no overload and the call does not compile, which the
    closed type [value] expresses. *)

Definition ValidateArgument (arg : value) : value :=
  match arg with
  | VInt _ v => VInt Long (to_long v)
  | VFloat _ x => VFloat Double (to_double x)
  | VPtr p a => VPtr p a
  | VString str => VPtr ConstCharData (c_str str)
  end.

(** ** Conditions raised by the scanner *)

Inductive runtime_error : Set :=
| BadFormat
| NotFloatingPoint
| NotIntegral
| NonString
| InvalidFormatChar.

Definition what (e : runtime_error) : string :=
  match e with
  | BadFormat => "Bad format"
  | NotFloatingPoint => "Parameter is not floating point!"
  | NotIntegral => "Parameter is not integral"
  | NonString => "Non-string parameter"
  | InvalidFormatChar => "Invalid format character"
  end.

Inductive outcome (A : Type) : Type :=
| Return (a : A)
| Throw (e : runtime_error).
Arguments Return {A} a.
Arguments Throw {A} e.

(** ** The format scanner *)

Definition NUL : ascii := zero.

(** The base case of the recursion: no parameter is left. *)
Fixpoint check_printf_base (f : string) : outcome unit :=
  match f with
  | EmptyString => Return tt
  | String c f1 =>
      if (c =? NUL)%char then Return tt
      else if negb (c =? "%")%char then check_printf_base f1
      else match f1 with
           | EmptyString => Throw BadFormat
           | String d f2 =>
               if (d =? "%")%char then check_printf_base f2
               else Throw BadFormat
           end
  end.

(** The [switch] on the conversion character, for a parameter of type
    [T]: [None] is [break]. *)
Definition check_directive (d : ascii) (T : type) : option runtime_error :=
  if ((d =? "f") || (d =? "g"))%char then
    if negb (is_floating_point T) then Some NotFloatingPoint else None
  else if (d =? "d")%char then
    if negb (is_integral T) then Some NotIntegral else None
  else if (d =? "s")%char then
    if negb (is_object (Pointer CharData)) || negb (is_object StdString)
    then Some NonString else None
  else Some InvalidFormatChar.

(** The recursive overload: [t] is the first parameter, [ts] the rest
    of the pack.  At the end of the string the character read by [*++f]
    is the terminator, which the [switch] sends to [default]; the
    branch that would step past the terminator is therefore dead. *)
Fixpoint check_printf (f : string) (ts : list value) {struct ts}
  : outcome unit :=
  match ts with
  | [] => check_printf_base f
  | t :: ts' =>
      (fix scan (f : string) : outcome unit :=
         match f with
         | EmptyString => Return tt
         | String c f1 =>
             if (c =? NUL)%char then Return tt
             else if negb (c =? "%")%char then scan f1
             else match f1 with
                  | EmptyString =>
                      match check_directive NUL (type_of t) with
                      | Some e => Throw e
                      | None => Return tt
                      end
                  | String d f2 =>
                      if (d =? "%")%char then scan f2
                      else match check_directive d (type_of t) with
                           | Some e => Throw e
                           | None => check_printf f2 ts'
                           end
                  end
         end) f
  end.

(** ** The platform's formatting routine

    [printf] belongs to the C library.  It is modelled on the templates
    the scanner lets through: literal text, [%%], and the bare
    conversions [%d], [%s], [%f] and [%g].  [None] stands for a call
    whose behaviour the C standard leaves undefined or that lies outside
    this fragment.

    [%d] fetches an [int] although [safe_printf] passes a [long]; on the
    LP64 targets the [int] is the low half of the argument slot.  The
    decimal rendering of a [double] is left to the library and enters as
    a parameter; memory is read through [mem], which yields the
    characters stored at an address up to their terminator. *)

Definition memory := address -> option string.

Definition to_int (v : Z) : Z := (v + 2 ^ 31) mod 2 ^ 32 - 2 ^ 31.

Definition decimal (v : Z) : string := NilZero.string_of_int (Z.to_int v).

Section Printf.

Variable format_double : ascii -> spec_float -> string.
Variable mem : memory.

(** The text one conversion produces from its argument. *)
Definition convert (d : ascii) (arg : value) : option string :=
  if ((d =? "f") || (d =? "g"))%char then
    match arg with
    | VFloat Double x => Some (format_double d x)
    | _ => None
    end
  else if (d =? "d")%char then
    match arg with
    | VInt _ v => Some (decimal (to_int v))
    | _ => None
    end
  else if (d =? "s")%char then
    match arg with
    | VPtr (CharData | ConstCharData) a => mem a
    | _ => None
    end
  else None.

Fixpoint printf_text (f : string) (args : list value) : option string :=
  match f with
  | EmptyString => Some EmptyString
  | String c f1 =>
      if (c =? NUL)%char then Some EmptyString
      else if negb (c =? "%")%char then
        option_map (String c) (printf_text f1 args)
      else match f1 with
           | EmptyString => None
           | String d f2 =>
               if (d =? "%")%char then
                 option_map (String "%") (printf_text f2 args)
               else match args with
                    | [] => None
                    | arg :: rest =>
                        match convert d arg, printf_text f2 rest with
                        | Some s, Some r => Some (s ++ r)
                        | _, _ => None
                        end
                    end
           end
  end.

(** Standard output is the text written so far; [printf] appends to
    it and returns the number of characters it wrote. *)
Definition stdout := string.

Definition printf (f : string) (args : list value) (out : stdout)
  : option (Z * stdout) :=
  match printf_text f args with
  | Some s => Some (Z.of_nat (String.length s), out ++ s)
  | None => None
  end.

(** ** [safe_printf] *)

Definition safe_printf (f : string) (ts : list value) (out : stdout)
  : option (outcome Z * stdout) :=
  match check_printf f (map ValidateArgument ts) with
  | Throw e => Some (Throw e, out)
  | Return _ =>
      match printf f (map ValidateArgument ts) out with
      | Some (n, out') => Some (Return n, out')
      | None => None
      end
  end.

End Printf.

(** The two calls of [main]: [foo] is a [std::string], ["bar"] a string
    literal and [3] an [int]. *)
Module Main.

Definition foo : std_string := {| c_str := 4096; contents := "foo" |}.
Definition bar : address := 8192.

Definition mem : memory :=
  fun a => if a =? c_str foo then Some (contents foo)
           else if a =? bar then Some "bar"
           else None.

Definition args : list value :=
  [VString foo; VPtr ConstCharData bar; VInt Int 3].

Definition LF : ascii := ascii_of_nat 10.

(** [main] passes no floating-point argument, so the rendering of a
    [double] is immaterial there. *)
Definition format_double : ascii -> spec_float -> string :=
  fun _ _ => EmptyString.

Definition first_format : string := "%s%s%d" ++ String LF EmptyString.
Definition second_format : string := "%d%s%d".

End Main.

(** ** The template as the specification reads it

    A template is literal text interspersed with [%%] escapes and
    directives, a [%] followed by a conversion character.  A [%] that
    is followed by nothing is [Dangling]. *)

Inductive token : Set :=
| Literal (c : ascii)
| Escape
| Directive (d : ascii)
| Dangling.

Fixpoint tokens (f : string) : list token :=
  match f with
  | EmptyString => []
  | String c f1 =>
      if (c =? NUL)%char then []
      else if negb (c =? "%")%char then Literal c :: tokens f1
      else match f1 with
           | EmptyString => [Dangling]
           | String d f2 =>
               if (d =? NUL)%char then [Dangling]
               else if (d =? "%")%char then Escape :: tokens f2
               else Directive d :: tokens f2
           end
  end.

(** The conversion characters of a template, in order.  A dangling [%]
    contributes the terminator, the character found in the place of its
    conversion character. *)
Definition conversion (t : token) : list ascii :=
  match t with
  | Directive d => [d]
  | Dangling => [NUL]
  | Literal _ | Escape => []
  end.

Definition directives (f : string) : list ascii :=
  flat_map conversion (tokens f).

(** The template with every [%%] replaced by a single [%]; directives,
    which stand for text to be substituted, are dropped. *)
Definition literal (t : token) : string :=
  match t with
  | Literal c => String c EmptyString
  | Escape => "%"
  | Directive _ | Dangling => EmptyString
  end.

Definition unescape (f : string) : string :=
  fold_right (fun t s => literal t ++ s) EmptyString (tokens f).

(** Categories of arguments, and the category each directive kind
    requires. *)
Inductive category : Set := CatIntegral | CatFloat | CatPointer | CatText.

Definition category_of (v : value) : category :=
  match v with
  | VInt _ _ => CatIntegral
  | VFloat _ _ => CatFloat
  | VPtr (CharData | ConstCharData) _ => CatText
  | VPtr _ _ => CatPointer
  | VString _ => CatText
  end.

Definition required_category (d : ascii) : option category :=
  if ((d =? "f") || (d =? "g"))%char then Some CatFloat
  else if (d =? "d")%char then Some CatIntegral
  else if (d =? "s")%char then Some CatText
  else None.

(** The spec's names for the conditions, by the message thrown:
    the three mismatches of the [switch], its [default], and the "Bad
    format" of the overload without parameters, which meets a directive
    when no argument is left. *)
Definition DirectiveArgumentMismatch (e : runtime_error) : Prop :=
  e = NotFloatingPoint \/ e = NotIntegral \/ e = NonString.

Definition UnrecognizedDirective (e : runtime_error) : Prop :=
  e = InvalidFormatChar.

Definition ArityMismatch (e : runtime_error) : Prop := e = BadFormat.

(** The scan seen on the list of conversion characters: one parameter
    per directive, first failure wins. *)
Fixpoint check_directives (ds : list ascii) (ts : list value)
  : outcome unit :=
  match ds with
  | [] => Return tt
  | d :: ds' =>
      match ts with
      | [] => Throw BadFormat
      | t :: ts' =>
          match check_directive d (type_of t) with
          | Some e => Throw e
          | None => check_directives ds' ts'
          end
      end
  end.

(** The scan gets as far as directive number [i]: every directive
    before it has a parameter and passes its check. *)
Definition reaches (f : string) (ts : list value) (i : nat) : Prop :=
  forall j, (j < i)%nat ->
    exists d t, nth_error (directives f) j = Some d /\
                nth_error ts j = Some t /\
                check_directive d (type_of (ValidateArgument t)) = None.

(** A token that is text: a literal character or an escape. *)
Definition plain (t : token) : Prop :=
  match t with
  | Literal _ | Escape => True
  | Directive _ | Dangling => False
  end.

(** A directive's kind matches an argument's category. *)
Definition matches (d : ascii) (t : value) : Prop :=
  required_category d = Some (category_of t).

(** A text argument can be read: its characters are in memory. *)
Definition readable (mem : memory) (t : value) : Prop :=
  match ValidateArgument t with
  | VPtr (CharData | ConstCharData) a => mem a <> None
  | _ => True
  end.

(** Templates that end in a run of [%] characters. *)
Fixpoint percents (n : nat) : string :=
  match n with
  | O => EmptyString
  | S n' => String "%" (percents n')
  end.

Fixpoint last_char (f : string) : option ascii :=
  match f with
  | EmptyString => None
  | String c f' =>
      match f' with
      | EmptyString => Some c
      | String _ _ => last_char f'
      end
  end.

Fixpoint has_nul (f : string) : bool :=
  match f with
  | EmptyString => false
  | String c f' => (c =? NUL)%char || has_nul f'
  end.

(** ** What a floating-point datum denotes

    A finite datum [(s, m, e)] denotes [(-1)^s * m * 2^e].  Moving the
    factors of two of the mantissa into the exponent gives the one
    representation with an odd mantissa, so two data denote the same
    number exactly when their reduced forms coincide. *)
Fixpoint odd_part (m : positive) (e : Z) : positive * Z :=
  match m with
  | xO p => odd_part p (e + 1)
  | _ => (m, e)
  end.

Definition real_value (x : spec_float) : spec_float :=
  match x with
  | S754_finite s m e => let (m', e') := odd_part m e in S754_finite s m' e'
  | _ => x
  end.

(** The argument's value exists in the normalizer's return type: the
    integer lies in the range of [long], the floating-point format is
    not wider than [double]. *)
Definition representable (arg : value) : Prop :=
  match arg with
  | VInt _ v => min_value Long <= v <= max_value Long
  | VFloat t _ => t <> LongDouble
  | VPtr _ _ | VString _ => True
  end.

(** No unrecognised directive comes before directive number [i]. *)
Definition recognised_before (f : string) (i : nat) : Prop :=
  forall j d, (j < i)%nat ->
    nth_error (directives f) j = Some d -> required_category d <> None.

(** ** The program

    A statement of [main] acts on the stream [stdout], to which
    [printf] hands its text, and either returns or throws.  An
    exception that nothing catches ends the sequence of statements:
    the program is then terminated without the stream being flushed, so
    the state kept here is what the stream has been given, not what has
    reached the terminal or file behind it. *)

Definition action (A : Type) : Type := stdout -> option (outcome A * stdout).

Definition ret {A : Type} (a : A) : action A :=
  fun out => Some (Return a, out).

Definition bind {A B : Type} (m : action A) (k : A -> action B) : action B :=
  fun out =>
    match m out with
    | Some (Return a, out') => k a out'
    | Some (Throw e, out') => Some (Throw e, out')
    | None => None
    end.

Notation "m >> k" := (bind m (fun _ => k))
  (at level 61, right associativity).

Definition endl : string := String (ascii_of_nat 10) EmptyString.

(** The constructor of [Gizmo]. *)
Definition Gizmo (fd : ascii -> spec_float -> string) (mem : memory)
  : action unit :=
  safe_printf fd mem ("Constructed a gizmo..." ++ endl) [] >> ret tt.

(** [main]; [foo] is the local [std::string], [bar] the address of the
    string literal ["bar"], [mem] the memory while the calls run.  The
    result is how the statements end, with the text the stream has been
    given by then. *)
Definition main (fd : ascii -> spec_float -> string) (mem : memory)
  (foo : std_string) (bar : address) : action Z :=
  Gizmo fd mem >>
  safe_printf fd mem ("%s%s%d" ++ endl)
    [VString foo; VPtr ConstCharData bar; VInt Int 3] >>
  safe_printf fd mem "%d%s%d"
    [VString foo; VPtr ConstCharData bar; VInt Int 3] >>
  ret 0.

(** The return type of the normalizer that overload resolution selects
    for an argument of type [T]. *)
Definition canonical_type (T : type) : type :=
  match T with
  | Integral _ => Integral Long
  | Floating _ => Floating Double
  | Pointer p => Pointer p
  | StdString => Pointer ConstCharData
  end.

(** A floating-point argument of a format no wider than [double]. *)
Definition binary64_or_narrower (arg : value) : Prop :=
  match arg with
  | VFloat LongDouble _ => False
  | _ => True
  end.

(** * Properties *)

(** ** The scanner and the formatter on examples *)

Example scan_ok :
  check_printf "%s%s%d"
    [VPtr ConstCharData 1; VPtr ConstCharData 2; VInt Long 3] = Return tt.
Proof. reflexivity. Qed.

Example scan_bad :
  check_printf "%d%s%d"
    [VPtr ConstCharData 1; VPtr ConstCharData 2; VInt Long 3]
  = Throw NotIntegral.
Proof. reflexivity. Qed.

Example main_first_call :
  forall fd, safe_printf fd Main.mem Main.first_format Main.args EmptyString
             = Some (Return 8, "foobar3" ++ String Main.LF EmptyString).
Proof. reflexivity. Qed.

Example main_second_call :
  forall fd, safe_printf fd Main.mem Main.second_format Main.args EmptyString
             = Some (Throw NotIntegral, EmptyString).
Proof. reflexivity. Qed.

(** The call made by the constructor of [Gizmo]. *)
Example gizmo_constructor :
  forall fd,
    safe_printf fd Main.mem
      ("Constructed a gizmo..." ++ String Main.LF EmptyString) [] EmptyString
    = Some (Return 23,
            "Constructed a gizmo..." ++ String Main.LF EmptyString).
Proof. reflexivity. Qed.

Example tokens_ex :
  tokens "a%%b%d%" =
  [Literal "a"; Escape; Literal "b"; Directive "d"; Dangling].
Proof. reflexivity. Qed.

Example unescape_ex : unescape "100%% sure%%" = "100% sure%".
Proof. reflexivity. Qed.


(** ** Reasoning principles *)

Lemma string_ind2 (P : string -> Prop) :
  P EmptyString ->
  (forall c, P (String c EmptyString)) ->
  (forall c d f, P f -> P (String d f) -> P (String c (String d f))) ->
  forall f, P f.
Proof.
  intros H0 H1 H2 f.
  assert (H : P f /\ forall c, P (String c f)).
  { induction f as [|d f [IHf IHc]]; split; auto. }
  apply H.
Qed.

Lemma check_directive_NUL T : check_directive NUL T = Some InvalidFormatChar.
Proof. reflexivity. Qed.

(** The scanner and the token view agree. *)
Lemma check_printf_base_directives f :
  check_printf_base f = check_directives (directives f) [].
Proof.
  induction f as [|c|c d f IH1 IH2] using string_ind2.
  - reflexivity.
  - unfold directives; simpl.
    destruct (c =? NUL)%char; [reflexivity|].
    destruct (c =? "%")%char; reflexivity.
  - unfold directives in *; cbn [check_printf_base tokens].
    destruct (c =? NUL)%char; [reflexivity|].
    destruct (c =? "%")%char eqn:Ec; cbn [negb].
    + destruct (d =? NUL)%char eqn:En.
      * apply Ascii.eqb_eq in En; subst d. reflexivity.
      * destruct (d =? "%")%char; [exact IH1 | reflexivity].
    + exact IH2.
Qed.

Lemma check_printf_directives f ts :
  check_printf f ts = check_directives (directives f) ts.
Proof.
  revert f; induction ts as [|t ts IH]; intro f.
  - apply check_printf_base_directives.
  - induction f as [|c|c d f IH1 IH2] using string_ind2.
    + reflexivity.
    + unfold directives; simpl.
      destruct (c =? NUL)%char; [reflexivity|].
      destruct (c =? "%")%char; reflexivity.
    + unfold directives in *. cbn [check_printf tokens] in *.
      destruct (c =? NUL)%char; [reflexivity|].
      destruct (c =? "%")%char eqn:Ec; cbn [negb].
      * destruct (d =? NUL)%char eqn:En.
        { apply Ascii.eqb_eq in En; subst d. reflexivity. }
        destruct (d =? "%")%char; [exact IH1|].
        cbn [flat_map conversion app check_directives].
        destruct (check_directive d (type_of t)); [reflexivity|].
        apply IH.
      * exact IH2.
Qed.

(** ** The scan on the list of conversion characters *)

Section Scan.

Implicit Types (ds : list ascii) (ts : list value) (i : nat).

(** A directive whose check cannot pass makes the scan fail, at that
    directive or before it. *)
Lemma check_directives_fails ds ts i d :
  nth_error ds i = Some d ->
  (forall t, nth_error ts i = Some t ->
             check_directive d (type_of t) <> None) ->
  exists e, check_directives ds ts = Throw e.
Proof.
  revert ds ts; induction i as [|i IH]; intros [|d0 ds] ts Hd Ht;
    try discriminate; simpl in Hd.
  - injection Hd as ->. destruct ts as [|t ts]; simpl; [eauto|].
    destruct (check_directive d (type_of t)) eqn:E; [eauto|].
    exfalso. now apply (Ht t).
  - destruct ts as [|t ts]; simpl; [eauto|].
    destruct (check_directive d0 (type_of t)); [eauto|].
    apply IH; [exact Hd|]. intros t' Ht'. now apply Ht.
Qed.

(** When every directive before number [i] passes, the outcome is
    decided at directive [i]. *)
Lemma check_directives_at ds ts i d :
  nth_error ds i = Some d ->
  (forall j, (j < i)%nat ->
     exists d' t', nth_error ds j = Some d' /\ nth_error ts j = Some t' /\
                   check_directive d' (type_of t') = None) ->
  check_directives ds ts =
  match nth_error ts i with
  | None => Throw BadFormat
  | Some t =>
      match check_directive d (type_of t) with
      | Some e => Throw e
      | None => check_directives (skipn (S i) ds) (skipn (S i) ts)
      end
  end.
Proof.
  revert ds ts; induction i as [|i IH]; intros [|d0 ds] ts Hd Hj;
    try discriminate; simpl in Hd.
  - injection Hd as ->. destruct ts; reflexivity.
  - destruct (Hj 0%nat) as (d' & t' & H1 & H2 & H3); [lia|].
    destruct ts as [|t ts]; [discriminate|].
    simpl in H1, H2. injection H1 as <-. injection H2 as <-.
    cbn [check_directives]. rewrite H3.
    rewrite (IH ds ts Hd); [reflexivity|].
    intros j Lj. apply (Hj (S j)). lia.
Qed.


End Scan.

(** A recognised directive fails with a mismatch or not at all. *)
Lemma check_directive_recognised d T e :
  required_category d <> None ->
  check_directive d T = Some e ->
  DirectiveArgumentMismatch e.
Proof.
  unfold required_category, check_directive, DirectiveArgumentMismatch.
  destruct ((d =? "f") || (d =? "g"))%char.
  { destruct (is_floating_point T); intros _ [= <-]; auto. }
  destruct (d =? "d")%char.
  { destruct (is_integral T); intros _ [= <-]; auto. }
  destruct (d =? "s")%char; [discriminate|].
  intros H; now contradiction H.
Qed.

Lemma check_directives_mismatch ds ts i d t e :
  nth_error ds i = Some d ->
  nth_error ts i = Some t ->
  check_directive d (type_of t) = Some e ->
  DirectiveArgumentMismatch e ->
  (forall j d', (j < i)%nat -> nth_error ds j = Some d' ->
                required_category d' <> None) ->
  exists e', check_directives ds ts = Throw e' /\
             DirectiveArgumentMismatch e'.
Proof.
  revert ds ts; induction i as [|i IH]; intros [|d0 ds] [|t0 ts] Hd Ht He Hm Hj;
    try discriminate; simpl in Hd, Ht.
  - injection Hd as ->. injection Ht as ->. simpl. rewrite He. eauto.
  - simpl. destruct (check_directive d0 (type_of t0)) as [e0|] eqn:E0.
    + exists e0. split; [reflexivity|].
      apply (check_directive_recognised d0 (type_of t0)); [|exact E0].
      apply (Hj 0%nat); [lia|reflexivity].
    + apply IH; auto. intros j d' Lj. apply (Hj (S j)). lia.
Qed.

(** ** What the [switch] decides *)

Lemma check_directive_d T :
  check_directive "d" T = if is_integral T then None else Some NotIntegral.
Proof. now destruct T. Qed.

Lemma check_directive_fg d T :
  d = "f"%char \/ d = "g"%char ->
  check_directive d T =
  if is_floating_point T then None else Some NotFloatingPoint.
Proof. intros [-> | ->]; now destruct T. Qed.

Lemma check_directive_s T : check_directive "s" T = None.
Proof. reflexivity. Qed.

Lemma check_directive_other d T :
  d <> "f"%char -> d <> "g"%char -> d <> "d"%char -> d <> "s"%char ->
  check_directive d T = Some InvalidFormatChar.
Proof.
  intros Hf Hg Hd Hs. unfold check_directive.
  apply Ascii.eqb_neq in Hf, Hg, Hd, Hs.
  now rewrite Hf, Hg, Hd, Hs.
Qed.

Lemma check_directive_never_NonString d T :
  check_directive d T <> Some NonString.
Proof.
  unfold check_directive.
  destruct ((d =? "f") || (d =? "g"))%char;
    [destruct (is_floating_point T); discriminate|].
  destruct (d =? "d")%char; [destruct (is_integral T); discriminate|].
  destruct (d =? "s")%char; discriminate.
Qed.

(** Normalisation keeps the category and yields one of three types. *)
Lemma category_of_ValidateArgument t :
  category_of (ValidateArgument t) = category_of t.
Proof. now destruct t as [| | [] |]. Qed.

Lemma is_integral_ValidateArgument t :
  is_integral (type_of (ValidateArgument t)) = true <->
  category_of t = CatIntegral.
Proof. destruct t as [| | [] |]; simpl; split; congruence. Qed.

Lemma is_floating_point_ValidateArgument t :
  is_floating_point (type_of (ValidateArgument t)) = true <->
  category_of t = CatFloat.
Proof. destruct t as [| | [] |]; simpl; split; congruence. Qed.

(** ** The call as a whole *)

Lemma safe_printf_throw fd mem f ts out e :
  check_printf f (map ValidateArgument ts) = Throw e ->
  safe_printf fd mem f ts out = Some (Throw e, out).
Proof. unfold safe_printf. now intros ->. Qed.

Lemma safe_printf_raised fd mem f ts out e out' :
  safe_printf fd mem f ts out = Some (Throw e, out') ->
  check_printf f (map ValidateArgument ts) = Throw e /\ out' = out.
Proof.
  unfold safe_printf.
  destruct (check_printf f (map ValidateArgument ts)).
  - destruct (printf fd mem f (map ValidateArgument ts) out) as [[n o]|];
      discriminate.
  - intros [= -> ->]. now split.
Qed.

Lemma reaches_normalized f ts i :
  reaches f ts i ->
  forall j, (j < i)%nat ->
    exists d' t', nth_error (directives f) j = Some d' /\
                  nth_error (map ValidateArgument ts) j = Some t' /\
                  check_directive d' (type_of t') = None.
Proof.
  intros H j Lj. destruct (H j Lj) as (d & t & H1 & H2 & H3).
  exists d, (ValidateArgument t). repeat split; auto.
  now apply map_nth_error.
Qed.

(** A directive that its parameter cannot satisfy aborts the call: with
    a condition in any case, with a mismatch when only recognised
    directives come before it, and with its own mismatch when the scan
    gets to it. *)
Lemma safe_printf_fails_at fd mem f ts out i d t e :
  nth_error (directives f) i = Some d ->
  nth_error ts i = Some t ->
  check_directive d (type_of (ValidateArgument t)) = Some e ->
  DirectiveArgumentMismatch e ->
  (exists e', safe_printf fd mem f ts out = Some (Throw e', out)) /\
  (recognised_before f i ->
   exists e', safe_printf fd mem f ts out = Some (Throw e', out) /\
              DirectiveArgumentMismatch e') /\
  (reaches f ts i -> safe_printf fd mem f ts out = Some (Throw e, out)).
Proof.
  intros Hd Ht He Hm.
  pose proof (map_nth_error ValidateArgument _ _ Ht) as Ht'.
  repeat split.
  - destruct (check_directives_fails (directives f)
                (map ValidateArgument ts) i d Hd) as [e' He'].
    + intros t' Heq. rewrite Ht' in Heq. injection Heq as <-.
      rewrite He. discriminate.
    + exists e'. apply safe_printf_throw.
      now rewrite check_printf_directives.
  - intros Hrec.
    destruct (check_directives_mismatch _ _ i d _ e Hd Ht' He Hm Hrec)
      as (e' & He' & Hm').
    exists e'. split; [|exact Hm'].
    apply safe_printf_throw. now rewrite check_printf_directives.
  - intros Hr. apply safe_printf_throw.
    rewrite check_printf_directives.
    rewrite (check_directives_at _ _ i d Hd (reaches_normalized _ _ _ Hr)).
    now rewrite Ht', He.
Qed.

(** ** Mismatches between a directive and its argument *)

(** The claim C3 fails as stated.  In [safe_printf ("%x%d", foo,
    "bar")] the [%d] has a text argument, yet the condition raised is
    not a mismatch: the [%x] before it throws "Invalid format
    character" first. *)
Lemma d_directive_behind_unrecognized :
  nth_error (directives "%x%d") 1 = Some "d"%char /\
  nth_error [VString Main.foo; VPtr ConstCharData Main.bar] 1
  = Some (VPtr ConstCharData Main.bar) /\
  category_of (VPtr ConstCharData Main.bar) <> CatIntegral /\
  safe_printf Main.format_double Main.mem "%x%d"
    [VString Main.foo; VPtr ConstCharData Main.bar] EmptyString
  = Some (Throw InvalidFormatChar, EmptyString) /\
  ~ DirectiveArgumentMismatch InvalidFormatChar.
Proof.
  repeat split; try discriminate.
  intros [H|[H|H]]; discriminate H.
Qed.

(** C3, as the code has it.  A [%d] directive whose argument is not of
    integral category aborts the call.  The call always raises a
    condition and writes nothing; the condition is a directive/argument
    mismatch whenever no unrecognised directive comes earlier in the
    template, and it is this directive's mismatch, "Parameter is not
    integral", when the scan gets as far as this directive.  The second
    call of [main], template ["%d%s%d"] with [("foo", "bar", 3)], is
    the instance checked right after. *)
Theorem d_directive_requires_integral fd mem f ts out i t :
  nth_error (directives f) i = Some "d"%char ->
  nth_error ts i = Some t ->
  category_of t <> CatIntegral ->
  (exists e, safe_printf fd mem f ts out = Some (Throw e, out)) /\
  (recognised_before f i ->
   exists e, safe_printf fd mem f ts out = Some (Throw e, out) /\
             DirectiveArgumentMismatch e) /\
  (reaches f ts i ->
   safe_printf fd mem f ts out = Some (Throw NotIntegral, out)).
Proof.
  intros Hd Ht Hc.
  apply (safe_printf_fails_at fd mem f ts out i _ t _ Hd Ht).
  - rewrite check_directive_d.
    destruct (is_integral (type_of (ValidateArgument t))) eqn:E; auto.
    now apply is_integral_ValidateArgument in E.
  - right; now left.
Qed.

Lemma d_directive_requires_integral_main :
  nth_error (directives Main.second_format) 0 = Some "d"%char /\
  nth_error Main.args 0 = Some (VString Main.foo) /\
  category_of (VString Main.foo) <> CatIntegral /\
  reaches Main.second_format Main.args 0 /\
  safe_printf Main.format_double Main.mem Main.second_format Main.args
    EmptyString
  = Some (Throw NotIntegral, EmptyString).
Proof.
  assert (H1 : nth_error (directives Main.second_format) 0 = Some "d"%char)
    by reflexivity.
  assert (H2 : nth_error Main.args 0 = Some (VString Main.foo))
    by reflexivity.
  assert (H3 : category_of (VString Main.foo) <> CatIntegral)
    by discriminate.
  assert (H4 : reaches Main.second_format Main.args 0).
  { intros j Hj. exfalso. exact (Nat.nlt_0_r j Hj). }
  refine (conj H1 (conj H2 (conj H3 (conj H4 _)))).
  exact (proj2 (proj2 (d_directive_requires_integral
                         Main.format_double Main.mem _ _ EmptyString 0%nat _
                         H1 H2 H3)) H4).
Defined.

(** The claim C8 fails as stated.  In [safe_printf ("%x%g", foo,
    "bar")] the [%g] has a text argument, yet the condition raised is
    not a mismatch: the [%x] before it throws "Invalid format
    character" first. *)
Lemma g_directive_behind_unrecognized :
  nth_error (directives "%x%g") 1 = Some "g"%char /\
  nth_error [VString Main.foo; VPtr ConstCharData Main.bar] 1
  = Some (VPtr ConstCharData Main.bar) /\
  category_of (VPtr ConstCharData Main.bar) <> CatFloat /\
  safe_printf Main.format_double Main.mem "%x%g"
    [VString Main.foo; VPtr ConstCharData Main.bar] EmptyString
  = Some (Throw InvalidFormatChar, EmptyString) /\
  ~ DirectiveArgumentMismatch InvalidFormatChar.
Proof.
  repeat split; try discriminate.
  intros [H|[H|H]]; discriminate H.
Qed.

(** C8, as the code has it.  A [%f] or [%g] directive whose argument is
    not of floating-point category aborts the call.  The call always
    raises a condition and writes nothing; the condition is a
    directive/argument mismatch whenever no unrecognised directive
    comes earlier in the template, and it is this directive's mismatch,
    "Parameter is not floating point!", when the scan gets as far as
    this directive. *)
Theorem fg_directive_requires_floating fd mem f ts out i d t :
  d = "f"%char \/ d = "g"%char ->
  nth_error (directives f) i = Some d ->
  nth_error ts i = Some t ->
  category_of t <> CatFloat ->
  (exists e, safe_printf fd mem f ts out = Some (Throw e, out)) /\
  (recognised_before f i ->
   exists e, safe_printf fd mem f ts out = Some (Throw e, out) /\
             DirectiveArgumentMismatch e) /\
  (reaches f ts i ->
   safe_printf fd mem f ts out = Some (Throw NotFloatingPoint, out)).
Proof.
  intros Hfg Hd Ht Hc.
  apply (safe_printf_fails_at fd mem f ts out i _ t _ Hd Ht).
  - rewrite (check_directive_fg d _ Hfg).
    destruct (is_floating_point (type_of (ValidateArgument t))) eqn:E; auto.
    now apply is_floating_point_ValidateArgument in E.
  - now left.
Qed.

Lemma fg_directive_requires_floating_witness :
  ("g"%char = "f"%char \/ "g"%char = "g"%char) /\
  nth_error (directives "n=%d x=%g") 1 = Some "g"%char /\
  nth_error [VInt Int 7; VString Main.foo] 1 = Some (VString Main.foo) /\
  category_of (VString Main.foo) <> CatFloat /\
  reaches "n=%d x=%g" [VInt Int 7; VString Main.foo] 1 /\
  safe_printf Main.format_double Main.mem "n=%d x=%g"
    [VInt Int 7; VString Main.foo] "log: "
  = Some (Throw NotFloatingPoint, "log: ").
Proof.
  assert (H0 : "g"%char = "f"%char \/ "g"%char = "g"%char)
    by (right; reflexivity).
  assert (H1 : nth_error (directives "n=%d x=%g") 1 = Some "g"%char)
    by reflexivity.
  assert (H2 : nth_error [VInt Int 7; VString Main.foo] 1
               = Some (VString Main.foo)) by reflexivity.
  assert (H3 : category_of (VString Main.foo) <> CatFloat) by discriminate.
  assert (H4 : reaches "n=%d x=%g" [VInt Int 7; VString Main.foo] 1).
  { intros [|j] Hj.
    - exists "d"%char, (VInt Int 7). repeat split.
    - exfalso. apply (Nat.nlt_0_r j). now apply Nat.succ_lt_mono. }
  refine (conj H0 (conj H1 (conj H2 (conj H3 (conj H4 _))))).
  exact (proj2 (proj2 (fg_directive_requires_floating
                         Main.format_double Main.mem _ _ "log: " 1%nat _ _
                         H0 H1 H2 H3)) H4).
Defined.

(** ** Unrecognised directives *)

(** A conversion character the [switch] does not know aborts the call.
    When the scan gets to it, the recursive overload reports "Invalid
    format character" and the overload without parameters "Bad
    format". *)
Lemma safe_printf_unrecognized fd mem f ts out i c :
  nth_error (directives f) i = Some c ->
  (forall T, check_directive c T = Some InvalidFormatChar) ->
  (exists e, safe_printf fd mem f ts out = Some (Throw e, out)) /\
  (reaches f ts i ->
   safe_printf fd mem f ts out
   = Some (Throw match nth_error ts i with
                 | Some _ => InvalidFormatChar
                 | None => BadFormat
                 end, out)).
Proof.
  intros Hd Hc. split.
  - destruct (check_directives_fails (directives f)
                (map ValidateArgument ts) i c Hd) as [e He].
    + intros t _. rewrite Hc. discriminate.
    + exists e. apply safe_printf_throw.
      now rewrite check_printf_directives.
  - intros Hr. apply safe_printf_throw.
    rewrite check_printf_directives.
    rewrite (check_directives_at _ _ i c Hd (reaches_normalized _ _ _ Hr)).
    rewrite nth_error_map.
    destruct (nth_error ts i) as [t|]; simpl; [now rewrite Hc|reflexivity].
Qed.

(** The claim C7 fails as stated.  In [safe_printf ("%d%x", foo, 1)]
    the [%x] is never looked at: the [%d] before it throws "Parameter
    is not integral".  In [safe_printf ("%x")] no parameter is left and
    the overload without parameters throws "Bad format". *)
Lemma x_directive_behind_mismatch :
  nth_error (directives "%d%x") 1 = Some "x"%char /\
  safe_printf Main.format_double Main.mem "%d%x"
    [VString Main.foo; VInt Int 1] EmptyString
  = Some (Throw NotIntegral, EmptyString) /\
  ~ UnrecognizedDirective NotIntegral /\
  nth_error (directives "%x") 0 = Some "x"%char /\
  safe_printf Main.format_double Main.mem "%x" [] EmptyString
  = Some (Throw BadFormat, EmptyString) /\
  ~ UnrecognizedDirective BadFormat.
Proof. repeat split; discriminate. Qed.

(** C7, as the code has it.  A [%] followed by a conversion character
    other than [f], [g], [d], [s] (and [%], which makes an escape, not
    a directive) aborts the call: the call always raises a condition
    and writes nothing.  When the scan gets as far as that directive
    and a parameter is left for it, the condition is the
    unrecognised-directive failure, "Invalid format character"; when no
    parameter is left, it is the arity failure "Bad format" of the
    overload without parameters. *)
Theorem unrecognized_directive_raises fd mem f ts out i c :
  nth_error (directives f) i = Some c ->
  c <> "f"%char -> c <> "g"%char -> c <> "d"%char -> c <> "s"%char ->
  (exists e, safe_printf fd mem f ts out = Some (Throw e, out)) /\
  (reaches f ts i ->
   match nth_error ts i with
   | Some _ =>
       safe_printf fd mem f ts out = Some (Throw InvalidFormatChar, out) /\
       UnrecognizedDirective InvalidFormatChar
   | None =>
       safe_printf fd mem f ts out = Some (Throw BadFormat, out) /\
       ArityMismatch BadFormat
   end).
Proof.
  intros Hd Hf Hg Hd' Hs.
  destruct (safe_printf_unrecognized fd mem f ts out i c Hd) as [H1 H2].
  { intros T. now apply check_directive_other. }
  split; [exact H1|]. intros Hr. specialize (H2 Hr).
  destruct (nth_error ts i); split; solve [exact H2 | reflexivity].
Qed.

Lemma unrecognized_directive_raises_witness :
  nth_error (directives "%s: %x") 1 = Some "x"%char /\
  "x"%char <> "f"%char /\ "x"%char <> "g"%char /\
  "x"%char <> "d"%char /\ "x"%char <> "s"%char /\
  reaches "%s: %x" [VString Main.foo; VInt Int 255] 1 /\
  safe_printf Main.format_double Main.mem "%s: %x"
    [VString Main.foo; VInt Int 255] EmptyString
  = Some (Throw InvalidFormatChar, EmptyString) /\
  UnrecognizedDirective InvalidFormatChar.
Proof.
  assert (H1 : nth_error (directives "%s: %x") 1 = Some "x"%char)
    by reflexivity.
  assert (Hf : "x"%char <> "f"%char) by discriminate.
  assert (Hg : "x"%char <> "g"%char) by discriminate.
  assert (Hd : "x"%char <> "d"%char) by discriminate.
  assert (Hs : "x"%char <> "s"%char) by discriminate.
  assert (Hr : reaches "%s: %x" [VString Main.foo; VInt Int 255] 1).
  { intros [|j] Hj.
    - exists "s"%char, (VString Main.foo). repeat split.
    - exfalso. apply (Nat.nlt_0_r j). now apply Nat.succ_lt_mono. }
  refine (conj H1 (conj Hf (conj Hg (conj Hd (conj Hs (conj Hr _)))))).
  exact (proj2 (unrecognized_directive_raises
                  Main.format_double Main.mem _
                  [VString Main.foo; VInt Int 255] EmptyString 1%nat _
                  H1 Hf Hg Hd Hs) Hr).
Defined.

(** ** A lone [%] at the end of the template *)

Lemma directives_percents k : directives (percents (2 * k + 1)) = [NUL].
Proof.
  induction k as [|k IH]; [reflexivity|].
  replace (2 * S k + 1)%nat with (S (S (2 * k + 1))) by lia.
  exact IH.
Qed.

Lemma last_char_cons c d f :
  last_char (String c (String d f)) = last_char (String d f).
Proof. reflexivity. Qed.

Lemma directives_trailing_percent body k :
  has_nul body = false ->
  last_char body <> Some "%"%char ->
  exists ds, directives (body ++ percents (2 * k + 1)) = (ds ++ [NUL])%list.
Proof.
  induction body as [|c|c d f IH1 IH2] using string_ind2; intros Hn Hl.
  - exists []. apply directives_percents.
  - exists []. simpl in Hn, Hl.
    rewrite orb_false_r in Hn.
    assert (Hc : (c =? "%")%char = false).
    { apply Ascii.eqb_neq. congruence. }
    unfold directives. cbn [append tokens]. rewrite Hn, Hc. cbn.
    apply directives_percents.
  - rewrite last_char_cons in Hl.
    cbn [has_nul] in Hn. apply orb_false_iff in Hn as [Hc Hn].
    pose proof Hn as Hn'. cbn [has_nul] in Hn'.
    apply orb_false_iff in Hn' as [Hd Hf].
    unfold directives in *. cbn [append tokens] in *.
    rewrite Hc. destruct (c =? "%")%char; cbn [negb].
    + rewrite Hd.
      assert (Hl' : (d =? "%")%char = false -> last_char f <> Some "%"%char).
      { intros E. destruct f; [discriminate|exact Hl]. }
      destruct (d =? "%")%char eqn:Ed.
      * apply IH1; [exact Hf|]. destruct f; [|exact Hl].
        apply Ascii.eqb_eq in Ed. subst d. now contradiction Hl.
      * destruct (IH1 Hf (Hl' eq_refl)) as [ds Hds].
        exists (d :: ds). cbn [flat_map conversion app]. now rewrite Hds.
    + apply IH2; [exact Hn|exact Hl].
Qed.

(** C9.  A template that ends in a lone [%], that is in an odd number
    of [%] characters after a body that does not itself end in [%], is
    never accepted: the terminator is read as the conversion character
    and fails.  The call always raises a condition and writes nothing;
    when the scan gets as far as the lone [%] the condition is "Invalid
    format character" if a parameter is left and "Bad format" if none
    is. *)
Theorem trailing_percent_rejected fd mem body k ts out :
  has_nul body = false ->
  last_char body <> Some "%"%char ->
  let f := body ++ percents (2 * k + 1) in
  let i := pred (List.length (directives f)) in
  nth_error (directives f) i = Some NUL /\
  (exists e, safe_printf fd mem f ts out = Some (Throw e, out)) /\
  (reaches f ts i ->
   exists e, safe_printf fd mem f ts out = Some (Throw e, out) /\
             e = match nth_error ts i with
                 | Some _ => InvalidFormatChar
                 | None => BadFormat
                 end).
Proof.
  intros Hn Hl f i.
  destruct (directives_trailing_percent body k Hn Hl) as [ds Hds].
  fold f in Hds.
  assert (Hi : nth_error (directives f) i = Some NUL).
  { unfold i. rewrite Hds, length_app, Nat.add_1_r. simpl.
    rewrite nth_error_app2, Nat.sub_diag by lia. reflexivity. }
  destruct (safe_printf_unrecognized fd mem f ts out i NUL Hi
              check_directive_NUL) as [H1 H2].
  repeat split; auto.
  intros Hr. eexists. split; [exact (H2 Hr)|reflexivity].
Qed.

Lemma trailing_percent_rejected_witness :
  has_nul "100%% done: %d" = false /\
  last_char "100%% done: %d" <> Some "%"%char /\
  exists e,
    safe_printf Main.format_double Main.mem
      ("100%% done: %d" ++ percents (2 * 1 + 1)) [VInt Int 7] EmptyString
    = Some (Throw e, EmptyString).
Proof.
  assert (Hn : has_nul "100%% done: %d" = false) by reflexivity.
  assert (Hl : last_char "100%% done: %d" <> Some "%"%char) by discriminate.
  refine (conj Hn (conj Hl _)).
  exact (proj1 (proj2 (trailing_percent_rejected
                         Main.format_double Main.mem _ 1%nat
                         [VInt Int 7] EmptyString Hn Hl))).
Defined.

(** ** The [%s] directive *)

Lemma check_directives_never_NonString ds ts :
  check_directives ds ts <> Throw NonString.
Proof.
  revert ts; induction ds as [|d ds IH]; intros [|t ts]; simpl;
    try discriminate.
  destruct (check_directive d (type_of t)) as [e|] eqn:E; [|apply IH].
  intros [= ->]. now apply (check_directive_never_NonString d (type_of t)).
Qed.

(** C1.  The check of a [%s] directive does not look at the parameter:
    it passes for every type, the scanner never raises "Non-string
    parameter", and [safe_printf ("%s", 3)] gets through validation and
    hands an integer to the [%s] of [printf]. *)
Theorem s_directive_accepts_any_argument :
  (forall T, check_directive "s" T = None) /\
  (forall f ts, check_printf f ts <> Throw NonString) /\
  check_printf "%s" (map ValidateArgument [VInt Int 3]) = Return tt /\
  (forall fd mem out, safe_printf fd mem "%s" [VInt Int 3] out = None).
Proof.
  repeat split.
  intros f ts. rewrite check_printf_directives.
  apply check_directives_never_NonString.
Qed.

(** ** Arity *)


Lemma printf_text_cons fd mem c f1 args :
  printf_text fd mem (String c f1) args =
  if (c =? NUL)%char then Some EmptyString
  else if negb (c =? "%")%char then
    option_map (String c) (printf_text fd mem f1 args)
  else match f1 with
       | EmptyString => None
       | String d f2 =>
           if (d =? "%")%char then
             option_map (String "%") (printf_text fd mem f2 args)
           else match args with
                | [] => None
                | arg :: rest =>
                    match convert fd mem d arg, printf_text fd mem f2 rest with
                    | Some s, Some r => Some (s ++ r)
                    | _, _ => None
                    end
                end
       end.
Proof. reflexivity. Qed.






(** ** No output from a call that raises *)

(** C4.  A call that raises a condition has written nothing: the
    condition comes from the validation, which is over before [printf]
    is entered, and standard output is as it was before the call. *)
Theorem raised_call_writes_nothing fd mem f ts out e out' :
  safe_printf fd mem f ts out = Some (Throw e, out') ->
  out' = out /\
  check_printf f (map ValidateArgument ts) = Throw e /\
  forall fd' mem' out0, safe_printf fd' mem' f ts out0 = Some (Throw e, out0).
Proof.
  intros H. apply safe_printf_raised in H as [Hc ->].
  repeat split; auto.
  intros fd' mem' out0. now apply safe_printf_throw.
Qed.

Lemma raised_call_writes_nothing_witness :
  safe_printf Main.format_double Main.mem "%s is %f" 
    [VString Main.foo; VInt Int 3] "earlier output"
  = Some (Throw NotFloatingPoint, "earlier output") /\
  "earlier output" = "earlier output" /\
  check_printf "%s is %f" (map ValidateArgument [VString Main.foo; VInt Int 3])
  = Throw NotFloatingPoint.
Proof.
  assert (H : safe_printf Main.format_double Main.mem "%s is %f"
                [VString Main.foo; VInt Int 3] "earlier output"
              = Some (Throw NotFloatingPoint, "earlier output"))
    by reflexivity.
  refine (conj H _).
  destruct (raised_call_writes_nothing _ _ _ _ _ _ _ H) as (H1 & H2 & _).
  exact (conj H1 H2).
Defined.

(** ** Calls that succeed *)

Lemma check_directive_matches d t :
  matches d t -> check_directive d (type_of (ValidateArgument t)) = None.
Proof.
  unfold matches, required_category, check_directive.
  destruct ((d =? "f") || (d =? "g"))%char.
  - intros [= H]. symmetry in H.
    apply is_floating_point_ValidateArgument in H. now rewrite H.
  - destruct (d =? "d")%char.
    + intros [= H]. symmetry in H.
      apply is_integral_ValidateArgument in H. now rewrite H.
    + destruct (d =? "s")%char; [reflexivity|discriminate].
Qed.

Lemma check_directives_matches ds ts :
  Forall2 matches ds ts ->
  check_directives ds (map ValidateArgument ts) = Return tt.
Proof.
  induction 1 as [|d t ds ts Hm _ IH]; [reflexivity|].
  simpl. now rewrite (check_directive_matches d t Hm).
Qed.

Lemma convert_matches fd mem d t :
  matches d t -> readable mem t ->
  exists s, convert fd mem d (ValidateArgument t) = Some s.
Proof.
  unfold matches, required_category, convert, readable.
  destruct ((d =? "f") || (d =? "g"))%char.
  - destruct t as [| | [] |]; try discriminate. simpl. eauto.
  - destruct (d =? "d")%char.
    + destruct t as [| | [] |]; try discriminate. simpl. eauto.
    + destruct (d =? "s")%char; [|discriminate].
      destruct t as [| | [] a | str]; try discriminate; simpl;
        intros _ Hr.
      * destruct (mem a); [eauto|contradiction].
      * destruct (mem a); [eauto|contradiction].
      * destruct (mem (c_str str)); [eauto|contradiction].
Qed.

Lemma printf_text_matches fd mem f ts :
  Forall2 matches (directives f) ts ->
  Forall (readable mem) ts ->
  exists s, printf_text fd mem f (map ValidateArgument ts) = Some s.
Proof.
  revert ts.
  induction f as [|c|c d f IH1 IH2] using string_ind2; intros ts Hm Hr.
  - simpl. eauto.
  - unfold directives in Hm. simpl in *.
    destruct (c =? NUL)%char; [eauto|].
    destruct (c =? "%")%char; simpl in *; [|eauto].
    inversion Hm as [|? t ? ? Hc]. discriminate Hc.
  - unfold directives in *.
    rewrite printf_text_cons. cbn [tokens] in Hm.
    destruct (c =? NUL)%char; [eauto|].
    destruct (c =? "%")%char; cbn [negb] in *.
    + destruct (d =? NUL)%char eqn:En.
      { inversion Hm as [|? t ? ? Hc]. discriminate Hc. }
      destruct (d =? "%")%char.
      * destruct (IH1 ts Hm Hr) as [s ->]. simpl. eauto.
      * cbn [flat_map conversion app] in Hm.
        inversion Hm as [|? t ? ts' Hc Hm']; subst.
        inversion Hr as [|? ? Ht Hr']; subst. cbn [map].
        destruct (convert_matches fd mem d t Hc Ht) as [s ->].
        destruct (IH1 ts' Hm' Hr') as [r ->]. eauto.
    + destruct (IH2 ts Hm Hr) as [s ->]. simpl. eauto.
Qed.

(** C5.  When the kinds of the template's directives match, one for
    one, the categories of the arguments, the validation passes and the
    call is the call of [printf] on the same template with the
    normalized arguments: same text appended to standard output, same
    status.  When moreover every text argument can be read, that call
    is defined and the status is the length of the text written.  The
    first call of [main], template ["%s%s%d\n"] with [("foo", "bar",
    3)], is the instance checked right after: it writes ["foobar3\n"]. *)
Theorem matching_call_succeeds fd mem f ts out :
  Forall2 matches (directives f) ts ->
  check_printf f (map ValidateArgument ts) = Return tt /\
  safe_printf fd mem f ts out =
    match printf fd mem f (map ValidateArgument ts) out with
    | Some (n, out') => Some (Return n, out')
    | None => None
    end /\
  (Forall (readable mem) ts ->
   exists text,
     safe_printf fd mem f ts out
     = Some (Return (Z.of_nat (String.length text)), out ++ text)).
Proof.
  intros Hm.
  assert (Hc : check_printf f (map ValidateArgument ts) = Return tt).
  { rewrite check_printf_directives. now apply check_directives_matches. }
  split; [exact Hc|]. split.
  - unfold safe_printf. now rewrite Hc.
  - intros Hr. destruct (printf_text_matches fd mem f ts Hm Hr) as [s Hs].
    exists s. unfold safe_printf, printf. now rewrite Hc, Hs.
Qed.

Lemma matching_call_succeeds_main :
  Forall2 matches (directives Main.first_format) Main.args /\
  safe_printf Main.format_double Main.mem Main.first_format Main.args
    EmptyString
  = Some (Return 8, "foobar3" ++ String Main.LF EmptyString).
Proof.
  assert (H : Forall2 matches (directives Main.first_format) Main.args).
  { repeat constructor. }
  refine (conj H _).
  exact (proj1 (proj2 (matching_call_succeeds
                         Main.format_double Main.mem _ _ EmptyString H))).
Defined.

(** ** Templates without directives *)

Lemma printf_text_plain fd mem f args :
  Forall plain (tokens f) ->
  printf_text fd mem f args = Some (unescape f).
Proof.
  induction f as [|c|c d f IH1 IH2] using string_ind2; intros Hp.
  - reflexivity.
  - unfold unescape. simpl in *.
    destruct (c =? NUL)%char; [reflexivity|].
    destruct (c =? "%")%char; simpl in *; [|reflexivity].
    inversion Hp as [|? ? Hc]. contradiction Hc.
  - unfold unescape in *. rewrite printf_text_cons.
    cbn [tokens] in *.
    destruct (c =? NUL)%char; [reflexivity|].
    destruct (c =? "%")%char; cbn [negb] in *.
    + destruct (d =? NUL)%char.
      { inversion Hp as [|? ? Hc]. contradiction Hc. }
      destruct (d =? "%")%char.
      * inversion Hp as [|? ? _ Hp']; subst.
        now rewrite (IH1 Hp').
      * inversion Hp as [|? ? Hc]. contradiction Hc.
    + inversion Hp as [|? ? _ Hp']; subst.
      now rewrite (IH2 Hp').
Qed.

Lemma directives_plain f : Forall plain (tokens f) -> directives f = [].
Proof.
  unfold directives. induction 1 as [|t l Ht _ IH]; [reflexivity|].
  destruct t; try contradiction; exact IH.
Qed.

(** C6.  A template made of literal text and [%%] escapes only, called
    without arguments, raises nothing; what is written is the template
    with every [%%] replaced by a single [%], and the status is its
    length. *)
Theorem plain_template_is_unescaped fd mem f out :
  Forall plain (tokens f) ->
  check_printf f (map ValidateArgument []) = Return tt /\
  safe_printf fd mem f [] out
  = Some (Return (Z.of_nat (String.length (unescape f))), out ++ unescape f).
Proof.
  intros Hp.
  assert (Hc : check_printf f (map ValidateArgument []) = Return tt).
  { rewrite check_printf_directives. now rewrite (directives_plain f Hp). }
  split; [exact Hc|].
  unfold safe_printf, printf.
  now rewrite Hc, (printf_text_plain fd mem f _ Hp).
Qed.

Lemma plain_template_is_unescaped_witness :
  Forall plain (tokens "100%% of a gizmo") /\
  safe_printf Main.format_double Main.mem "100%% of a gizmo" [] "> "
  = Some (Return 15, "> 100% of a gizmo").
Proof.
  assert (H : Forall plain (tokens "100%% of a gizmo")).
  { repeat constructor. }
  refine (conj H _).
  exact (proj2 (plain_template_is_unescaped
                  Main.format_double Main.mem _ "> " H)).
Defined.

(** ** The parameter normalizers *)

(** The reduced form is the same number with an odd mantissa. *)
Lemma odd_part_spec m e :
  exists k, 0 <= k /\
            Zpos m = Zpos (fst (odd_part m e)) * 2 ^ k /\
            snd (odd_part m e) = e + k /\
            Z.odd (Zpos (fst (odd_part m e))) = true.
Proof.
  revert e; induction m as [m IH|m IH|]; intros e.
  - exists 0. simpl. repeat split; lia.
  - destruct (IH (e + 1)) as (k & Hk & Hm & He & Ho).
    exists (k + 1). cbn [odd_part]. repeat split; try lia; auto.
    rewrite Z.pow_add_r, Z.pow_1_r by lia. lia.
  - exists 0. simpl. repeat split; lia.
Qed.

(** Conversion to [long] keeps a value that [long] can hold. *)
Lemma to_long_in_range v :
  min_value Long <= v <= max_value Long -> to_long v = v.
Proof.
  unfold to_long, min_value, max_value. intros H.
  rewrite Z.mod_small; lia.
Qed.

(** Conversion to [double] of a datum that is already aligned on the
    binary64 grid, or can be aligned by shifting its mantissa left. *)
Lemma iter_xO_succ m d : Pos.iter xO m (Pos.succ d) = xO (Pos.iter xO m d).
Proof. apply Pos.iter_succ. Qed.

Lemma digits2_pos_shift m d :
  Zpos (digits2_pos (Pos.iter xO m d)) = Zpos (digits2_pos m) + Zpos d.
Proof.
  induction d as [|d IH] using Pos.peano_ind.
  - simpl. lia.
  - rewrite iter_xO_succ. simpl digits2_pos. lia.
Qed.

Lemma odd_part_shift m d e :
  odd_part (Pos.iter xO m d) (e - Zpos d) = odd_part m e.
Proof.
  revert e. induction d as [|d IH] using Pos.peano_ind; intros e.
  - simpl. f_equal. lia.
  - rewrite iter_xO_succ. simpl odd_part.
    replace (e - Zpos (Pos.succ d) + 1) with (e - Zpos d) by lia.
    apply IH.
Qed.

Lemma binary_round_aligned s m e :
  fexp 53 1024 (Zpos (digits2_pos m) + e) = e ->
  e <= 971 ->
  binary_round_aux 53 1024 s (Zpos m) e loc_Exact = S754_finite s m e.
Proof.
  intros Hc He. unfold binary_round_aux, shr_fexp.
  cbn [Zdigits2 shr_record_of_loc]. rewrite Hc, Z.sub_diag.
  cbn [shr shr_m loc_of_shr_record round_nearest_even Zdigits2
       shr_record_of_loc].
  rewrite Hc, Z.sub_diag. cbn [shr shr_m].
  replace (e <=? 1024 - 53) with true; [reflexivity|].
  symmetry. apply Z.leb_le. lia.
Qed.

Lemma binary_round_exact s m e :
  let e' := fexp 53 1024 (Zpos (digits2_pos m) + e) in
  e' <= e -> e' <= 971 ->
  exists m', binary_round 53 1024 s m e = S754_finite s m' e' /\
             odd_part m' e' = odd_part m e /\
             valid_binary 53 1024 (S754_finite s m' e') = true.
Proof.
  intros e' Hle Hmax. unfold binary_round. fold e'. unfold shl_align.
  assert (Hv : forall m', fexp 53 1024 (Zpos (digits2_pos m') + e') = e' ->
                 valid_binary 53 1024 (S754_finite s m' e') = true).
  { intros m' Hc. unfold valid_binary, bounded, canonical_mantissa.
    rewrite Hc, Z.eqb_refl. apply Z.leb_le. lia. }
  destruct (e' - e) as [|p|d] eqn:Ed; try lia.
  - assert (He : e = e') by lia.
    assert (Hc : fexp 53 1024 (Zpos (digits2_pos m) + e) = e)
      by (rewrite He at 2; reflexivity).
    exists m. rewrite (binary_round_aligned s m e Hc) by lia.
    rewrite <- He. repeat split. rewrite He in Hc |- *. now apply Hv.
  - assert (Hc : fexp 53 1024 (Zpos (digits2_pos (Pos.iter xO m d)) + e') = e').
    { rewrite digits2_pos_shift. unfold e' at 2. f_equal. lia. }
    exists (Pos.iter xO m d).
    rewrite (binary_round_aligned s _ e' Hc Hmax).
    repeat split.
    + replace e' with (e - Zpos d) by lia. apply odd_part_shift.
    + now apply Hv.
Qed.

Lemma valid_binary32_fits m e :
  bounded 24 128 m e = true ->
  fexp 53 1024 (Zpos (digits2_pos m) + e) <= e /\
  fexp 53 1024 (Zpos (digits2_pos m) + e) <= 971.
Proof.
  unfold bounded, canonical_mantissa, fexp, emin.
  intros H. apply andb_prop in H as [H1 H2].
  apply Z.eqb_eq in H1. apply Z.leb_le in H2. lia.
Qed.

Lemma valid_binary64_fits m e :
  bounded 53 1024 m e = true ->
  fexp 53 1024 (Zpos (digits2_pos m) + e) <= e /\
  fexp 53 1024 (Zpos (digits2_pos m) + e) <= 971.
Proof.
  unfold bounded, canonical_mantissa, fexp, emin.
  intros H. apply andb_prop in H as [H1 H2].
  apply Z.eqb_eq in H1. apply Z.leb_le in H2. lia.
Qed.

Lemma to_double_exact t x :
  t <> LongDouble ->
  valid_binary (prec t) (emax t) x = true ->
  valid_binary 53 1024 (to_double x) = true /\
  real_value (to_double x) = real_value x.
Proof.
  intros Ht Hv. destruct x as [s|s| |s m e]; try (split; reflexivity).
  assert (Hfit : fexp 53 1024 (Zpos (digits2_pos m) + e) <= e /\
                 fexp 53 1024 (Zpos (digits2_pos m) + e) <= 971).
  { destruct t; [now apply valid_binary32_fits
                | now apply valid_binary64_fits | contradiction]. }
  destruct (binary_round_exact s m e (proj1 Hfit) (proj2 Hfit))
    as (m' & Hr & Ho & Hv').
  unfold to_double. rewrite Hr. split; [exact Hv'|].
  unfold real_value. now rewrite Ho.
Qed.

(** The claim C10 fails as stated: the largest [unsigned long] comes
    back as the [long] -1. *)
Lemma ValidateArgument_wraps_unsigned_long :
  well_formed (VInt ULong (2 ^ 64 - 1)) /\
  ValidateArgument (VInt ULong (2 ^ 64 - 1)) = VInt Long (-1) /\
  ValidateArgument (VInt ULong (2 ^ 64 - 1)) <> VInt Long (2 ^ 64 - 1).
Proof.
  split; [|split].
  - unfold well_formed, in_range. simpl. lia.
  - reflexivity.
  - discriminate.
Qed.

(** A [long double] with a 64-bit mantissa loses its last bits:
    2^63 + 1 becomes 2^63. *)
Example long_double_is_rounded :
  let x := S754_finite false (2 ^ 63 + 1) 0 in
  well_formed (VFloat LongDouble x) /\
  real_value x = x /\
  real_value (to_double x) = S754_finite false 1 63.
Proof. repeat split. Qed.

(** C10, as the code has it.  An argument whose value exists in the
    return type of its normalizer comes back with that value at the
    canonical type: an integer within the range of [long] as the same
    [long], a [float] or [double] as a [double] denoting the same
    number, a pointer unchanged at its own type, a [std::string] as the
    [const char*] to its character data. *)
Theorem ValidateArgument_canonical arg :
  well_formed arg ->
  representable arg ->
  match arg with
  | VInt _ v => ValidateArgument arg = VInt Long v
  | VFloat _ x =>
      exists y, ValidateArgument arg = VFloat Double y /\
                valid_binary 53 1024 y = true /\
                real_value y = real_value x
  | VPtr p a => ValidateArgument arg = VPtr p a
  | VString str => ValidateArgument arg = VPtr ConstCharData (c_str str)
  end.
Proof.
  destruct arg as [t v|t x|p a|str]; simpl; intros Hw Hr.
  - now rewrite to_long_in_range.
  - exists (to_double x). split; [reflexivity|].
    now apply (to_double_exact t).
  - reflexivity.
  - reflexivity.
Qed.

Lemma ValidateArgument_canonical_witness :
  (well_formed (VFloat Float (S754_finite false 12582912 (-23))) /\
   representable (VFloat Float (S754_finite false 12582912 (-23))) /\
   exists y, ValidateArgument
               (VFloat Float (S754_finite false 12582912 (-23)))
             = VFloat Double y /\
             valid_binary 53 1024 y = true /\
             real_value y = S754_finite false 3 (-1)) /\
  (well_formed (VInt UInt 4294967295) /\
   representable (VInt UInt 4294967295) /\
   ValidateArgument (VInt UInt 4294967295) = VInt Long 4294967295).
Proof.
  assert (Hw : well_formed
                 (VFloat Float (S754_finite false 12582912 (-23))))
    by reflexivity.
  assert (Hr : representable
                 (VFloat Float (S754_finite false 12582912 (-23))))
    by discriminate.
  assert (Hw' : well_formed (VInt UInt 4294967295))
    by (split; discriminate).
  assert (Hr' : representable (VInt UInt 4294967295))
    by (split; discriminate).
  refine (conj (conj Hw (conj Hr _)) (conj Hw' (conj Hr' _))).
  - exact (ValidateArgument_canonical _ Hw Hr).
  - exact (ValidateArgument_canonical _ Hw' Hr').
Defined.

(** * Further properties of the scanner, the normalizers and the program *)

(** ** The scan on lists, continued *)

Lemma check_directives_types ds ts ts' :
  map type_of ts = map type_of ts' ->
  check_directives ds ts = check_directives ds ts'.
Proof.
  revert ts ts'; induction ds as [|d ds IH]; intros [|t ts] [|t' ts'] H;
    try reflexivity; try discriminate.
  simpl in *. injection H as Ht Hts. rewrite Ht.
  destruct (check_directive d (type_of t')); [reflexivity|].
  now apply IH.
Qed.

Lemma check_directives_accepts ds ts :
  check_directives ds ts = Return tt <->
  forall j, (j < List.length ds)%nat ->
    exists d t, nth_error ds j = Some d /\ nth_error ts j = Some t /\
                check_directive d (type_of t) = None.
Proof.
  revert ts; induction ds as [|d0 ds IH]; intros ts; simpl.
  - split; [intros _ j Hj; lia | reflexivity].
  - destruct ts as [|t0 ts].
    + split; [discriminate|]. intros H.
      destruct (H 0%nat) as (d & t & _ & Ht & _); [lia|discriminate].
    + destruct (check_directive d0 (type_of t0)) eqn:E0.
      * split; [discriminate|]. intros H.
        destruct (H 0%nat) as (d & t & Hd & Ht & Hc); [lia|].
        simpl in Hd, Ht. injection Hd as <-. injection Ht as <-.
        congruence.
      * rewrite IH. split; intros H j Hj.
        -- destruct j as [|j]; [exists d0, t0; auto|].
           apply (H j). lia.
        -- apply (H (S j)). lia.
Qed.

Lemma check_directives_throws ds ts e :
  check_directives ds ts = Throw e <->
  exists i d,
    nth_error ds i = Some d /\
    (forall j, (j < i)%nat ->
       exists d' t', nth_error ds j = Some d' /\ nth_error ts j = Some t' /\
                     check_directive d' (type_of t') = None) /\
    match nth_error ts i with
    | None => e = BadFormat
    | Some t => check_directive d (type_of t) = Some e
    end.
Proof.
  split.
  - revert ts; induction ds as [|d0 ds IH]; intros ts; simpl;
      [discriminate|].
    destruct ts as [|t0 ts].
    + intros [= <-]. exists 0%nat, d0. repeat split. intros j Hj; lia.
    + destruct (check_directive d0 (type_of t0)) as [e0|] eqn:E0.
      * intros [= <-]. exists 0%nat, d0. repeat split; auto.
        intros j Hj; lia.
      * intros H. destruct (IH ts H) as (i & d & Hd & Hj & Hi).
        exists (S i), d. repeat split; auto.
        intros [|j] Lj; [exists d0, t0; auto|]. apply Hj. lia.
  - intros (i & d & Hd & Hj & Hi).
    rewrite (check_directives_at ds ts i d Hd Hj).
    destruct (nth_error ts i) as [t|]; [now rewrite Hi | now subst].
Qed.

Lemma check_directives_firstn ds ts :
  check_directives ds ts = check_directives ds (firstn (List.length ds) ts).
Proof.
  revert ts; induction ds as [|d ds IH]; intros [|t ts]; try reflexivity.
  simpl. destruct (check_directive d (type_of t)); [reflexivity|apply IH].
Qed.

Lemma check_directives_app ds1 ds2 ts1 ts2 :
  List.length ds1 = List.length ts1 ->
  check_directives ds1 ts1 = Return tt ->
  check_directives (ds1 ++ ds2) (ts1 ++ ts2) = check_directives ds2 ts2.
Proof.
  revert ts1; induction ds1 as [|d ds1 IH]; intros [|t ts1] Hl Hc;
    try discriminate; [reflexivity|].
  simpl in *. destruct (check_directive d (type_of t)); [discriminate|].
  apply IH; [lia|exact Hc].
Qed.

Lemma check_directives_app_throw ds1 ds2 ts1 ts2 e :
  check_directives ds1 ts1 = Throw e ->
  e <> BadFormat ->
  check_directives (ds1 ++ ds2) (ts1 ++ ts2) = Throw e.
Proof.
  revert ts1; induction ds1 as [|d ds1 IH]; intros [|t ts1] Hc He;
    try discriminate; simpl in *.
  - congruence.
  - destruct (check_directive d (type_of t)); [exact Hc|]. now apply IH.
Qed.

Lemma check_directive_never_BadFormat d T :
  check_directive d T <> Some BadFormat.
Proof.
  unfold check_directive.
  destruct ((d =? "f") || (d =? "g"))%char;
    [destruct (is_floating_point T); discriminate|].
  destruct (d =? "d")%char; [destruct (is_integral T); discriminate|].
  destruct (d =? "s")%char; discriminate.
Qed.

Lemma reaches_iff_normalized f ts i :
  reaches f ts i <->
  forall j, (j < i)%nat ->
    exists d' t', nth_error (directives f) j = Some d' /\
                  nth_error (map ValidateArgument ts) j = Some t' /\
                  check_directive d' (type_of t') = None.
Proof.
  split; [apply reaches_normalized|].
  intros H j Lj. destruct (H j Lj) as (d & t' & Hd & Ht & Hc).
  rewrite nth_error_map in Ht.
  destruct (nth_error ts j) as [t|]; [|discriminate].
  injection Ht as <-. exists d, t. auto.
Qed.

Lemma safe_printf_throw_iff fd mem f ts out e :
  safe_printf fd mem f ts out = Some (Throw e, out) <->
  check_printf f (map ValidateArgument ts) = Throw e.
Proof.
  split; [|apply safe_printf_throw].
  intros H. now apply safe_printf_raised in H.
Qed.

Lemma type_of_ValidateArgument t :
  type_of (ValidateArgument t) = canonical_type (type_of t).
Proof. now destruct t. Qed.

Lemma types_of_normalized ts ts' :
  map type_of ts = map type_of ts' ->
  map type_of (map ValidateArgument ts)
  = map type_of (map ValidateArgument ts').
Proof.
  revert ts'; induction ts as [|t ts IH]; intros [|t' ts'] H;
    try reflexivity; try discriminate.
  simpl in *. injection H as Ht Hts.
  now rewrite !type_of_ValidateArgument, Ht, (IH ts' Hts).
Qed.

Lemma passed_validation_reaches f ts :
  check_printf f (map ValidateArgument ts) = Return tt ->
  reaches f ts (List.length (directives f)).
Proof.
  rewrite check_printf_directives, check_directives_accepts.
  apply reaches_iff_normalized.
Qed.

(** ** Validation looks at types, not values *)

(** X1.  The scanner never inspects the value of a parameter: two
    argument lists with the same types, position by position, get the
    same verdict from [check_printf], before and after normalization,
    and [safe_printf] raises the same conditions on them. *)
Theorem validation_depends_on_types_only f ts ts' :
  map type_of ts = map type_of ts' ->
  check_printf f ts = check_printf f ts' /\
  check_printf f (map ValidateArgument ts)
  = check_printf f (map ValidateArgument ts') /\
  (forall fd mem out e,
     safe_printf fd mem f ts out = Some (Throw e, out) <->
     safe_printf fd mem f ts' out = Some (Throw e, out)).
Proof.
  intros H.
  assert (Hn : check_printf f (map ValidateArgument ts)
               = check_printf f (map ValidateArgument ts')).
  { rewrite !check_printf_directives.
    apply check_directives_types. now apply types_of_normalized. }
  repeat split.
  - rewrite !check_printf_directives. now apply check_directives_types.
  - exact Hn.
  - rewrite !safe_printf_throw_iff. now rewrite Hn.
  - rewrite !safe_printf_throw_iff. now rewrite Hn.
Qed.

Lemma validation_depends_on_types_only_witness :
  map type_of [VInt Int 1; VString Main.foo]
  = map type_of [VInt Int (-7); VString {| c_str := 0; contents := "x" |}] /\
  check_printf "%f %s" [VInt Int 1; VString Main.foo]
  = check_printf "%f %s"
      [VInt Int (-7); VString {| c_str := 0; contents := "x" |}].
Proof.
  assert (H : map type_of [VInt Int 1; VString Main.foo]
              = map type_of [VInt Int (-7);
                             VString {| c_str := 0; contents := "x" |}])
    by reflexivity.
  refine (conj H _).
  exact (proj1 (validation_depends_on_types_only "%f %s" _ _ H)).
Defined.

(** ** When validation passes, when it fails *)

(** X2.  Validation passes exactly when every directive of the
    template has an argument and the type of that argument, once
    normalized, passes the directive's check. *)
Theorem validation_passes_iff f ts :
  check_printf f (map ValidateArgument ts) = Return tt <->
  reaches f ts (List.length (directives f)).
Proof.
  rewrite check_printf_directives, check_directives_accepts.
  symmetry. apply reaches_iff_normalized.
Qed.

Lemma validation_passes_iff_witness :
  reaches "%g%%, %d" [VFloat Float (S754_zero false); VInt Bool 1]
    (List.length (directives "%g%%, %d")) /\
  check_printf "%g%%, %d"
    (map ValidateArgument [VFloat Float (S754_zero false); VInt Bool 1])
  = Return tt.
Proof.
  assert (H : reaches "%g%%, %d"
                [VFloat Float (S754_zero false); VInt Bool 1]
                (List.length (directives "%g%%, %d"))).
  { intros [|[|j]] Hj.
    - exists "g"%char, (VFloat Float (S754_zero false)). repeat split.
    - exists "d"%char, (VInt Bool 1). repeat split.
    - exfalso. apply (Nat.nlt_0_r j). now do 2 apply Nat.succ_lt_mono. }
  refine (conj H _).
  exact (proj2 (validation_passes_iff _ _) H).
Defined.

(** X3.  Every condition a call raises has a cause in the template, and
    every cause raises: the call raises [e] exactly when there is a
    directive that the scan gets to and that either has no argument
    left, in which case [e] is "Bad format", or fails its check on the
    type of its argument with [e]. *)
Theorem raised_condition_has_a_cause fd mem f ts out e :
  safe_printf fd mem f ts out = Some (Throw e, out) <->
  exists i d,
    nth_error (directives f) i = Some d /\
    reaches f ts i /\
    match nth_error ts i with
    | None => e = BadFormat
    | Some t => check_directive d (type_of (ValidateArgument t)) = Some e
    end.
Proof.
  rewrite safe_printf_throw_iff, check_printf_directives,
    check_directives_throws.
  split; intros (i & d & Hd & Hj & Hi); exists i, d;
    (split; [exact Hd|]); rewrite nth_error_map in *;
    (split; [now apply reaches_iff_normalized|]);
    destruct (nth_error ts i); exact Hi.
Qed.

Lemma raised_condition_has_a_cause_witness :
  safe_printf Main.format_double Main.mem "%s=%d" [VString Main.foo]
    EmptyString = Some (Throw BadFormat, EmptyString) /\
  exists i d,
    nth_error (directives "%s=%d") i = Some d /\
    reaches "%s=%d" [VString Main.foo] i /\
    match nth_error [VString Main.foo] i with
    | None => BadFormat = BadFormat
    | Some t =>
        check_directive d (type_of (ValidateArgument t)) = Some BadFormat
    end.
Proof.
  assert (H : safe_printf Main.format_double Main.mem "%s=%d"
                [VString Main.foo] EmptyString
              = Some (Throw BadFormat, EmptyString)) by reflexivity.
  refine (conj H _).
  exact (proj1 (raised_condition_has_a_cause _ _ _ _ _ _) H).
Defined.

(** X4.  "Bad format" is the arity failure and nothing else: a call
    raises it exactly when the template has more directives than there
    are arguments and every argument passes the check of its
    directive. *)
Theorem bad_format_means_missing_argument fd mem f ts out :
  safe_printf fd mem f ts out = Some (Throw BadFormat, out) <->
  (List.length ts < List.length (directives f))%nat /\
  reaches f ts (List.length ts).
Proof.
  rewrite safe_printf_throw_iff, check_printf_directives,
    check_directives_throws.
  split.
  - intros (i & d & Hd & Hj & Hi). rewrite nth_error_map in Hi.
    destruct (nth_error ts i) as [t|] eqn:Ht.
    { now apply check_directive_never_BadFormat in Hi. }
    apply nth_error_None in Ht.
    assert (Hlt : (i < List.length (directives f))%nat)
      by (apply nth_error_Some; congruence).
    assert (Hle : (i <= List.length ts)%nat).
    { destruct i as [|i]; [lia|].
      destruct (Hj i) as (_ & t' & _ & Ht' & _); [lia|].
      assert (i < List.length (map ValidateArgument ts))%nat
        by (apply nth_error_Some; congruence).
      rewrite length_map in *. lia. }
    assert (i = List.length ts) by lia. subst i.
    split; [exact Hlt|]. now apply reaches_iff_normalized.
  - intros [Hlt Hr].
    destruct (nth_error (directives f) (List.length ts)) as [d|] eqn:Hd.
    + exists (List.length ts), d. split; [exact Hd|].
      split; [now apply reaches_iff_normalized|].
      assert (Hn : nth_error (map ValidateArgument ts) (List.length ts)
                   = None)
        by (apply nth_error_None; rewrite length_map; lia).
      now rewrite Hn.
    + apply nth_error_None in Hd. lia.
Qed.

Lemma bad_format_means_missing_argument_witness :
  safe_printf Main.format_double Main.mem "%d/%d" [VInt Int 1]
    EmptyString = Some (Throw BadFormat, EmptyString) /\
  (List.length [VInt Int 1] < List.length (directives "%d/%d"))%nat /\
  reaches "%d/%d" [VInt Int 1] (List.length [VInt Int 1]).
Proof.
  assert (H : safe_printf Main.format_double Main.mem "%d/%d" [VInt Int 1]
                EmptyString = Some (Throw BadFormat, EmptyString))
    by reflexivity.
  refine (conj H _).
  exact (proj1 (bad_format_means_missing_argument _ _ _ _ _) H).
Defined.

(** X5.  The scan uses one argument per directive and no more: the
    verdict on a call is the verdict on its first arguments, as many as
    the template has directives. *)
Theorem validation_reads_one_argument_per_directive f ts :
  check_printf f (map ValidateArgument ts)
  = check_printf f
      (map ValidateArgument (firstn (List.length (directives f)) ts)).
Proof.
  rewrite !check_printf_directives, <- firstn_map.
  apply check_directives_firstn.
Qed.

(** ** Templates put together *)

Lemma tokens_app f1 f2 :
  has_nul f1 = false ->
  ~ In Dangling (tokens f1) ->
  tokens (f1 ++ f2) = (tokens f1 ++ tokens f2)%list.
Proof.
  induction f1 as [|c|c d f IH1 IH2] using string_ind2; intros Hn Hd.
  - reflexivity.
  - simpl in Hn. rewrite orb_false_r in Hn.
    cbn [append tokens] in *. rewrite Hn in *.
    destruct (c =? "%")%char; cbn [negb] in *; [|reflexivity].
    exfalso. apply Hd. now left.
  - cbn [has_nul] in Hn. apply orb_false_iff in Hn as [Hc Hn].
    pose proof Hn as Hn'. cbn [has_nul] in Hn'.
    apply orb_false_iff in Hn' as [Hd' Hf].
    cbn [append tokens] in *. rewrite Hc in *.
    destruct (c =? "%")%char; cbn [negb] in *.
    + rewrite Hd' in *.
      destruct (d =? "%")%char; cbn [app]; f_equal;
        apply IH1; auto; intros H; apply Hd; now right.
    + cbn [app]. f_equal. apply IH2; [exact Hn|].
      intros H; apply Hd; now right.
Qed.

Lemma directives_app f1 f2 :
  has_nul f1 = false ->
  ~ In Dangling (tokens f1) ->
  directives (f1 ++ f2) = (directives f1 ++ directives f2)%list.
Proof.
  intros Hn Hd. unfold directives.
  now rewrite (tokens_app f1 f2 Hn Hd), flat_map_app.
Qed.

(** X6.  Validation composes along the template.  Let [f1] be a
    template without an embedded terminator and without a dangling [%].
    If [f1] passes on [ts1] and uses all of it, then [f1] followed by
    [f2], called on [ts1] followed by [ts2], gets the verdict of [f2] on
    [ts2]; and if [f1] fails on [ts1] for a reason other than a missing
    argument, the longer call fails in the same way. *)
Theorem validation_of_concatenation f1 f2 ts1 ts2 :
  has_nul f1 = false ->
  ~ In Dangling (tokens f1) ->
  (List.length (directives f1) = List.length ts1 ->
   check_printf f1 ts1 = Return tt ->
   check_printf (f1 ++ f2) (ts1 ++ ts2) = check_printf f2 ts2) /\
  (forall e, check_printf f1 ts1 = Throw e -> e <> BadFormat ->
             check_printf (f1 ++ f2) (ts1 ++ ts2) = Throw e).
Proof.
  intros Hn Hd. split.
  - intros Hl Hc. rewrite !check_printf_directives in *.
    rewrite (directives_app f1 f2 Hn Hd).
    now apply check_directives_app.
  - intros e Hc He. rewrite !check_printf_directives in *.
    rewrite (directives_app f1 f2 Hn Hd).
    now apply check_directives_app_throw.
Qed.

Lemma validation_of_concatenation_witness :
  has_nul "%s: 100%% " = false /\
  ~ In Dangling (tokens "%s: 100%% ") /\
  List.length (directives "%s: 100%% ") = List.length [VString Main.foo] /\
  check_printf "%s: 100%% " [VString Main.foo] = Return tt /\
  check_printf ("%s: 100%% " ++ "%d%q") ([VString Main.foo] ++ [VInt Int 3])
  = check_printf "%d%q" [VInt Int 3].
Proof.
  assert (Hn : has_nul "%s: 100%% " = false) by reflexivity.
  assert (Hd : ~ In Dangling (tokens "%s: 100%% ")).
  { intros H. repeat (destruct H as [H|H]; [discriminate H|]). exact H. }
  assert (Hl : List.length (directives "%s: 100%% ")
               = List.length [VString Main.foo]) by reflexivity.
  assert (Hc : check_printf "%s: 100%% " [VString Main.foo] = Return tt)
    by reflexivity.
  refine (conj Hn (conj Hd (conj Hl (conj Hc _)))).
  exact (proj1 (validation_of_concatenation _ "%d%q" _ [VInt Int 3] Hn Hd)
           Hl Hc).
Defined.

(** ** What a passed validation guarantees *)

(** X7.  After a validation that passes, every directive of the
    template is one of [f], [g], [d], [s] and has an argument; the
    argument of each [%d] is of integral category and the argument of
    each [%f] or [%g] of floating-point category. *)
Theorem validated_call_is_well_typed f ts :
  check_printf f (map ValidateArgument ts) = Return tt ->
  forall i d, nth_error (directives f) i = Some d ->
    exists t, nth_error ts i = Some t /\
              required_category d <> None /\
              (d = "d"%char -> category_of t = CatIntegral) /\
              (d = "f"%char \/ d = "g"%char -> category_of t = CatFloat).
Proof.
  intros Hc i d Hd.
  apply passed_validation_reaches in Hc.
  assert (Hi : (i < List.length (directives f))%nat)
    by (apply nth_error_Some; congruence).
  destruct (Hc i Hi) as (d' & t & Hd' & Ht & Hp).
  assert (d' = d) by congruence. subst d'.
  exists t. split; [exact Ht|]. repeat split.
  - unfold required_category. unfold check_directive in Hp.
    destruct ((d =? "f") || (d =? "g"))%char; [discriminate|].
    destruct (d =? "d")%char; [discriminate|].
    destruct (d =? "s")%char; discriminate.
  - intros ->. rewrite check_directive_d in Hp.
    apply is_integral_ValidateArgument.
    now destruct (is_integral (type_of (ValidateArgument t))).
  - intros Hfg. rewrite (check_directive_fg d _ Hfg) in Hp.
    apply is_floating_point_ValidateArgument.
    now destruct (is_floating_point (type_of (ValidateArgument t))).
Qed.

Lemma validated_call_is_well_typed_witness :
  check_printf Main.first_format (map ValidateArgument Main.args)
  = Return tt /\
  nth_error (directives Main.first_format) 2 = Some "d"%char /\
  exists t, nth_error Main.args 2 = Some t /\
            required_category "d" <> None /\
            ("d"%char = "d"%char -> category_of t = CatIntegral) /\
            ("d"%char = "f"%char \/ "d"%char = "g"%char ->
             category_of t = CatFloat).
Proof.
  assert (Hc : check_printf Main.first_format
                 (map ValidateArgument Main.args) = Return tt)
    by reflexivity.
  assert (Hd : nth_error (directives Main.first_format) 2 = Some "d"%char)
    by reflexivity.
  refine (conj Hc (conj Hd _)).
  exact (validated_call_is_well_typed _ _ Hc 2%nat "d"%char Hd).
Defined.

(** X8.  After a validation that passes, the argument list handed to
    [printf] has an entry for every directive of the template; the
    entry for a [%d] is of type [long], the return type of the integral
    normalizer and not the [int] that [%d] names, and the entry for a
    [%f] or [%g] is of type [double]. *)
Theorem validated_call_passes_canonical_arguments f ts :
  check_printf f (map ValidateArgument ts) = Return tt ->
  forall i d, nth_error (directives f) i = Some d ->
    exists a, nth_error (map ValidateArgument ts) i = Some a /\
              (d = "d"%char -> type_of a = Integral Long) /\
              (d = "f"%char \/ d = "g"%char -> type_of a = Floating Double).
Proof.
  intros Hc i d Hd.
  assert (Hi : (i < List.length (directives f))%nat)
    by (apply nth_error_Some; congruence).
  destruct (passed_validation_reaches f ts Hc i Hi)
    as (d' & t & Hd' & Ht & Hp).
  assert (d' = d) by congruence. subst d'.
  exists (ValidateArgument t). split; [now apply map_nth_error|].
  rewrite type_of_ValidateArgument in *. split.
  - intros ->. rewrite check_directive_d in Hp.
    destruct (type_of t); simpl in *; [reflexivity|discriminate..].
  - intros Hfg. rewrite (check_directive_fg d _ Hfg) in Hp.
    destruct (type_of t); simpl in *; try discriminate; reflexivity.
Qed.

Lemma validated_call_passes_canonical_arguments_witness :
  check_printf "%d%% of %g"
    (map ValidateArgument [VInt UChar 42; VFloat Float (S754_zero false)])
  = Return tt /\
  nth_error (directives "%d%% of %g") 0 = Some "d"%char /\
  exists a,
    nth_error (map ValidateArgument
                 [VInt UChar 42; VFloat Float (S754_zero false)]) 0
    = Some a /\
    ("d"%char = "d"%char -> type_of a = Integral Long) /\
    ("d"%char = "f"%char \/ "d"%char = "g"%char ->
     type_of a = Floating Double).
Proof.
  assert (Hc : check_printf "%d%% of %g"
                 (map ValidateArgument
                    [VInt UChar 42; VFloat Float (S754_zero false)])
               = Return tt) by reflexivity.
  assert (Hd : nth_error (directives "%d%% of %g") 0 = Some "d"%char)
    by reflexivity.
  refine (conj Hc (conj Hd _)).
  exact (validated_call_passes_canonical_arguments _ _ Hc 0%nat "d"%char Hd).
Defined.

(** ** The normalizers, continued *)

Lemma to_long_bounds v : min_value Long <= to_long v <= max_value Long.
Proof.
  unfold to_long, min_value, max_value.
  pose proof (Z.mod_pos_bound (v + 2 ^ 63) (2 ^ 64)). lia.
Qed.

Lemma to_long_congruent v : (to_long v - v) mod 2 ^ 64 = 0.
Proof.
  unfold to_long.
  rewrite (Z.mod_eq (v + 2 ^ 63) (2 ^ 64)) by lia.
  replace (v + 2 ^ 63 - 2 ^ 64 * ((v + 2 ^ 63) / 2 ^ 64) - 2 ^ 63 - v)
    with (- ((v + 2 ^ 63) / 2 ^ 64) * 2 ^ 64) by lia.
  apply Z.mod_mul. lia.
Qed.

Lemma to_double_binary64 x :
  valid_binary 53 1024 x = true -> to_double x = x.
Proof.
  destruct x as [s|s| |s m e]; try reflexivity.
  unfold valid_binary, bounded, canonical_mantissa. intros H.
  apply andb_prop in H as [Hc He].
  apply Z.eqb_eq in Hc. apply Z.leb_le in He.
  unfold to_double, binary_round, shl_align.
  rewrite Hc, Z.sub_diag. apply binary_round_aligned; [exact Hc|lia].
Qed.

(** X9.  What a normalizer returns is a well-formed value of the
    canonical type of its argument's type, of the same category, and a
    value the normalizers leave alone: normalizing twice is normalizing
    once.  (For an argument that is well formed and, if floating-point,
    no wider than [double].) *)
Theorem ValidateArgument_result_is_canonical arg :
  well_formed arg ->
  binary64_or_narrower arg ->
  type_of (ValidateArgument arg) = canonical_type (type_of arg) /\
  category_of (ValidateArgument arg) = category_of arg /\
  well_formed (ValidateArgument arg) /\
  ValidateArgument (ValidateArgument arg) = ValidateArgument arg.
Proof.
  intros Hw Hb.
  split; [apply type_of_ValidateArgument|].
  split; [apply category_of_ValidateArgument|].
  destruct arg as [t v|t x|p a|str]; simpl in *.
  - split; [apply to_long_bounds|].
    now rewrite (to_long_in_range _ (to_long_bounds v)).
  - assert (Ht : t <> LongDouble) by (destruct t; [discriminate..|easy]).
    destruct (to_double_exact t x Ht Hw) as [Hv _].
    split; [exact Hv|]. now rewrite (to_double_binary64 _ Hv).
  - now split.
  - now split.
Qed.

Lemma ValidateArgument_result_is_canonical_witness :
  well_formed (VInt ULong (2 ^ 64 - 1)) /\
  binary64_or_narrower (VInt ULong (2 ^ 64 - 1)) /\
  type_of (ValidateArgument (VInt ULong (2 ^ 64 - 1))) = Integral Long /\
  well_formed (ValidateArgument (VInt ULong (2 ^ 64 - 1))) /\
  ValidateArgument (ValidateArgument (VInt ULong (2 ^ 64 - 1)))
  = ValidateArgument (VInt ULong (2 ^ 64 - 1)).
Proof.
  assert (Hw : well_formed (VInt ULong (2 ^ 64 - 1)))
    by (split; discriminate).
  assert (Hb : binary64_or_narrower (VInt ULong (2 ^ 64 - 1))) by exact I.
  refine (conj Hw (conj Hb _)).
  destruct (ValidateArgument_result_is_canonical _ Hw Hb)
    as (H1 & _ & H3 & H4).
  exact (conj H1 (conj H3 H4)).
Defined.

(** X10.  The integral normalizer never fails and never leaves the
    range of [long]: whatever the integral type and value of the
    argument, the result is a [long] within range that differs from the
    argument by a multiple of 2^64. *)
Theorem integral_normalizer_wraps t v :
  exists w, ValidateArgument (VInt t v) = VInt Long w /\
            in_range Long w /\
            (w - v) mod 2 ^ 64 = 0.
Proof.
  exists (to_long v). split; [reflexivity|].
  split; [apply to_long_bounds|apply to_long_congruent].
Qed.

(** ** Nothing is read past the terminator *)

Lemma tokens_terminated f g : tokens (f ++ String NUL g) = tokens f.
Proof.
  induction f as [|c|c d f IH1 IH2] using string_ind2.
  - reflexivity.
  - cbn [append tokens]. destruct (c =? NUL)%char; [reflexivity|].
    destruct (c =? "%")%char; reflexivity.
  - cbn [append tokens] in *. destruct (c =? NUL)%char; [reflexivity|].
    destruct (c =? "%")%char; cbn [negb].
    + destruct (d =? NUL)%char; [reflexivity|].
      destruct (d =? "%")%char; now rewrite IH1.
    + now rewrite IH2.
Qed.

Lemma printf_text_terminated fd mem f g args :
  printf_text fd mem (f ++ String NUL g) args = printf_text fd mem f args.
Proof.
  revert args.
  induction f as [|c|c d f IH1 IH2] using string_ind2; intros args.
  - reflexivity.
  - cbn [append]. rewrite !printf_text_cons.
    destruct (c =? NUL)%char; [reflexivity|].
    destruct (c =? "%")%char; cbn [negb]; [|reflexivity].
    change (NUL =? "%")%char with false. cbv iota.
    destruct args as [|a rest]; [reflexivity|].
    replace (convert fd mem NUL a) with (@None string) by reflexivity.
    reflexivity.
  - cbn [append].
    rewrite (printf_text_cons fd mem c (String d (f ++ String NUL g))),
      (printf_text_cons fd mem c (String d f)).
    destruct (c =? NUL)%char; [reflexivity|].
    destruct (c =? "%")%char; cbn [negb].
    + destruct (d =? "%")%char; [now rewrite IH1|].
      destruct args as [|a rest]; [reflexivity|]. now rewrite IH1.
    + change (String d (f ++ String NUL g))
        with (String d f ++ String NUL g). now rewrite IH2.
Qed.

(** X11.  The terminator ends the template for the scanner and for
    [printf] alike: whatever lies in memory behind the first NUL has no
    influence on the call. *)
Theorem nothing_is_read_past_the_terminator fd mem f g ts out :
  check_printf (f ++ String NUL g) ts = check_printf f ts /\
  safe_printf fd mem (f ++ String NUL g) ts out = safe_printf fd mem f ts out.
Proof.
  assert (H : forall args,
             check_printf (f ++ String NUL g) args = check_printf f args).
  { intros args. rewrite !check_printf_directives. unfold directives.
    now rewrite tokens_terminated. }
  split; [apply H|].
  unfold safe_printf, printf.
  now rewrite H, printf_text_terminated.
Qed.

(** ** The program as a whole *)

Lemma append_assoc_string (a b c : string) : (a ++ b) ++ c = a ++ b ++ c.
Proof. induction a as [|x a IH]; simpl; [reflexivity|now rewrite IH]. Qed.

(** X12.  The statements of [main] end with the exception "Parameter
    is not integral" of the last call, which nothing catches.  By then
    the constructor of [Gizmo] and the first call have handed their two
    lines to the stream [stdout], and the failing call has handed it
    nothing.  This holds wherever [foo] and ["bar"] lie in memory and
    whatever the stream was given before.  (What of this text reaches
    the terminal or file behind the stream when the program is
    terminated is a matter of buffering and is not stated.) *)
Theorem main_ends_with_uncaught_exception fd mem foo bar out :
  mem (c_str foo) = Some "foo" ->
  mem bar = Some "bar" ->
  main fd mem foo bar out
  = Some (Throw NotIntegral,
          out ++ ("Constructed a gizmo..." ++ endl) ++ "foobar3" ++ endl).
Proof.
  intros Hfoo Hbar.
  unfold main, Gizmo, bind, ret.
  assert (H1 : safe_printf fd mem ("Constructed a gizmo..." ++ endl) [] out
               = Some (Return 23, out ++ "Constructed a gizmo..." ++ endl))
    by reflexivity.
  rewrite H1.
  assert (H2 : forall o,
             safe_printf fd mem ("%s%s%d" ++ endl)
               [VString foo; VPtr ConstCharData bar; VInt Int 3] o
             = Some (Return 8, o ++ "foobar3" ++ endl)).
  { intros o. unfold safe_printf, printf.
    cbn [map ValidateArgument check_printf].
    change (check_printf ("%s%s%d" ++ endl)
              [VPtr ConstCharData (c_str foo); VPtr ConstCharData bar;
               VInt Long (to_long 3)]) with (Return tt).
    cbn [append printf_text convert Ascii.eqb Bool.eqb orb negb option_map
         endl NUL zero ascii_of_nat ascii_of_pos].
    rewrite Hfoo, Hbar. reflexivity. }
  rewrite H2.
  rewrite append_assoc_string.
  reflexivity.
Qed.

Lemma main_ends_with_uncaught_exception_witness :
  Main.mem (c_str Main.foo) = Some "foo" /\
  Main.mem Main.bar = Some "bar" /\
  main Main.format_double Main.mem Main.foo Main.bar EmptyString
  = Some (Throw NotIntegral,
          ("Constructed a gizmo..." ++ endl) ++ "foobar3" ++ endl).
Proof.
  assert (H1 : Main.mem (c_str Main.foo) = Some "foo") by reflexivity.
  assert (H2 : Main.mem Main.bar = Some "bar") by reflexivity.
  refine (conj H1 (conj H2 _)).
  exact (main_ends_with_uncaught_exception
           Main.format_double Main.mem Main.foo Main.bar EmptyString H1 H2).
Defined.
